(** * amplication-client: the entity list view and the GitHub repository hook

  A shallow embedding of

  - [packages/amplication-client/src/Entity/EntityList.tsx]
  - [packages/amplication-client/src/Application/github/dialogs/GithubRepos/hooks/useGitSelected.tsx]

  Local component state is a record, event handlers are state
  transformers, the query variables are a function of the state, the
  render is a function to a tree of React elements that may complete
  abruptly, and the effects on the Apollo clients are explicit state
  passing over the client's state. *)

From Stdlib Require Import ZArith DecimalString DecimalPos DecimalZ.
From stdpp Require Import base option list strings gmap.

Set Warnings "-register-all".

Local Open Scope Z_scope.
Local Open Scope string_scope.
Local Open Scope list_scope.

(** ** JavaScript values the two files rely on *)

Module JS.

(** An [Error] object: its [name] and its [message]. *)
Record Error := { name : string; message : string }.

(** How the evaluation of an expression ends: with a value, or with a
    thrown error that unwinds to the caller. *)
Inductive completion (A : Type) : Type :=
| Normal (a : A)
| Throw (e : Error).
Arguments Normal {A} a.
Arguments Throw {A} e.

#[export] Instance completion_ret : MRet completion := fun A a => Normal a.
#[export] Instance completion_bind : MBind completion := fun A B f m =>
  match m with
  | Normal a => f a
  | Throw e => Throw e
  end.
#[export] Instance completion_fmap : FMap completion := fun A B f m =>
  match m with
  | Normal a => Normal (f a)
  | Throw e => Throw e
  end.

(** [a || b] at type [string | null]: [null] and the empty string are the
    falsy values. *)
Definition or_else (a : option string) (b : string) : string :=
  match a with
  | Some s => if decide (s = "") then b else s
  | None => b
  end.

(** [Boolean(x)] at type [object | undefined]. *)
Definition Boolean {A} (x : option A) : bool :=
  match x with
  | Some _ => true
  | None => false
  end.

(** [String(n)] for an integral number, as React writes a number child:
    decimal digits, with a minus sign below zero. *)
Definition String_of_number (n : Z) : string :=
  NilZero.string_of_int (Z.to_int n).

(** Reading property [prop] of a value that may be [undefined]: the read
    of a property of [undefined] throws a [TypeError] (the message is the
    one of V8). *)
Definition get {A B} (prop : string) (read : A → B) (x : option A)
  : completion B :=
  match x with
  | Some a => Normal (read a)
  | None =>
      Throw {| name := "TypeError";
               message := "Cannot read property '" +:+ prop +:+ "' of undefined" |}
  end.

(** A settled promise. *)
Inductive promise (A : Type) : Type :=
| Fulfilled (a : A)
| Rejected (reason : Error).
Arguments Fulfilled {A} a.
Arguments Rejected {A} reason.

End JS.

(** ** The generated GraphQL models, as far as the two files read them

  The shapes follow the selection sets of [GET_ENTITIES] and
  [ENABLE_SYNC_WITH_GITHUB] and the optional chaining of the render: a
  field read through [?.] or guarded by [&&] is optional. *)

Module models.

Inductive SortOrder := Asc | Desc.
Inductive QueryMode := Default | Insensitive.

#[export] Instance SortOrder_eq_dec : EqDecision SortOrder.
Proof. solve_decision. Defined.
#[export] Instance QueryMode_eq_dec : EqDecision QueryMode.
Proof. solve_decision. Defined.

Record Account := { firstName : string; lastName : string }.

Record User := { account : option Account }.

Record Commit := {
  userId : string;
  message : string;
  createdAt : string;
  user : option User;
}.

Record EntityVersion := {
  versionNumber : Z;
  commit : option Commit;
}.

Record Entity := {
  id : string;
  displayName : string;
  description : option string;
  lockedByUserId : option string;
  lockedAt : option string;
  lockedByUser : option User;
  entityVersions : list EntityVersion;
}.

Record GitRepo := { fullName : string }.

Record App := {
  app_id : string;
  githubSyncEnabled : bool;
  githubRepo : option string;
  githubBranch : option string;
}.

End models.

(** ** React elements *)

Module React.

(** A rendered tree. [null], [undefined] and [false] render nothing; an
    array of children and [<>...</>] are fragments. *)
Inductive node : Type :=
| Element (type : string) (props : list (string * prop)) (children : list node)
| Fragment (children : list node)
| Text (s : string)
| Number (n : Z)
| Nothing
with prop : Type :=
| PString (s : string)
| PNumber (n : Z)
| PBool (b : bool)
| PNull
| PUndefined
| PObject (fields : list (string * prop))
| PArray (items : list prop)
| PNode (n : node)
| PCallback (function : string)
| PConst (constant : string).

(** A prop of type [string | undefined]. *)
Definition PString_opt (s : option string) : prop :=
  match s with
  | Some s => PString s
  | None => PUndefined
  end.

(** A child of type [string | undefined]. *)
Definition Text_opt (s : option string) : node :=
  match s with
  | Some s => Text s
  | None => Nothing
  end.

(** The text the tree shows, as the DOM's [textContent]. *)
Fixpoint textContent (n : node) : string :=
  match n with
  | Element _ _ children | Fragment children =>
      (fix go (l : list node) : string :=
         match l with
         | [] => ""
         | c :: l => textContent c +:+ go l
         end) children
  | Text s => s
  | Number z => JS.String_of_number z
  | Nothing => ""
  end.

(** The number of elements of type [type] among the tree's children. *)
Fixpoint count (ty : string) (n : node) : nat :=
  match n with
  | Element ty' _ children =>
      ((if decide (ty = ty') then 1 else 0) +
       (fix go (l : list node) : nat :=
          match l with
          | [] => 0
          | c :: l => count ty c + go l
          end) children)%nat
  | Fragment children =>
      (fix go (l : list node) : nat :=
         match l with
         | [] => 0%nat
         | c :: l => (count ty c + go l)%nat
         end) children
  | Text _ | Number _ | Nothing => 0%nat
  end.

(** The children of an element or a fragment. *)
Definition children_of (n : node) : list node :=
  match n with
  | Element _ _ children | Fragment children => children
  | _ => []
  end.

(** The value of a prop of an element. *)
Definition prop_of (key : string) (n : node) : option prop :=
  match n with
  | Element _ props _ => snd <$> List.find (λ p, bool_decide (fst p = key)) props
  | _ => None
  end.

End React.

(** ** The notification widget *)

Module Snackbar.
Import React.





End Snackbar.

(** ** [Entity/EntityList.tsx] *)

Module EntityList.
Import JS models React.

(** [type sortData]: the grid reports the order of a column as a number or
    [null]; the component compares it with [1] and nothing else. *)
Record sortData := { field : option string; order : option Z }.

Definition NAME_FIELD : string := "displayName".

Definition INITIAL_SORT_DATA : sortData := {| field := None; order := None |}.

Definition POLL_INTERVAL : Z := 2000.

(** The three [useState] cells of the component. *)
Record state := {
  sortDir : sortData;
  searchPhrase : string;
  newEntity : bool;
}.

Definition initial_state : state :=
  {| sortDir := INITIAL_SORT_DATA; searchPhrase := ""; newEntity := false |}.

Definition setSortDir (v : sortData) (st : state) : state :=
  {| sortDir := v; searchPhrase := searchPhrase st; newEntity := newEntity st |}.

Definition setSearchPhrase (v : string) (st : state) : state :=
  {| sortDir := sortDir st; searchPhrase := v; newEntity := newEntity st |}.

Definition setNewEntity (v : bool) (st : state) : state :=
  {| sortDir := sortDir st; searchPhrase := searchPhrase st; newEntity := v |}.

Definition handleSortChange (fieldName : string) (order : option Z)
  : state → state :=
  setSortDir {| field := Some fieldName;
                order := Some (match order with None => 1 | Some o => o end) |}.

Definition handleSearchChange (value : string) : state → state :=
  setSearchPhrase value.

(** The callback [useCallback] returns in a render that saw [newEntity]:
    the value is captured, and the dependency list rebuilds the callback
    whenever it changes. *)
Definition handleNewEntityClick (newEntity : bool) : state → state :=
  setNewEntity (negb newEntity).

(** A click runs the callback of the latest render. *)
Definition click_new_entity (st : state) : state :=
  handleNewEntityClick (newEntity st) st.

Record StringFilter := { contains : string; mode : QueryMode }.

(** The [variables] of the [useQuery] call. [orderBy] is an object with one
    computed key. *)
Record Variables := {
  var_id : string;
  orderBy : gmap string SortOrder;
  whereName : option StringFilter;
}.

Definition variables (applicationId : string) (st : state) : Variables :=
  {| var_id := applicationId;
     orderBy :=
       {[ or_else (field (sortDir st)) NAME_FIELD :=
            if decide (order (sortDir st) = Some 1) then Desc else Asc ]};
     whereName :=
       if decide (searchPhrase st ≠ "")
       then Some {| contains := searchPhrase st; mode := Insensitive |}
       else None |}.

(** *** The query client, as the component sees it

    [useQuery] hands the component the result of the query and the two
    functions that start and stop the client's polling timer. The client
    holds at most one timer; the calls it receives are recorded. *)

Inductive poll_call := StartPolling (interval : Z) | StopPolling.

Record QueryClient := {
  pollInterval : option Z;
  calls : list poll_call;
}.

Definition startPolling (interval : Z) (c : QueryClient) : QueryClient :=
  {| pollInterval := Some interval;
     calls := calls c ++ [StartPolling interval] |}.

Definition stopPolling (c : QueryClient) : QueryClient :=
  {| pollInterval := None; calls := calls c ++ [StopPolling] |}.

(** The function passed to [useEffect]: it starts polling and returns the
    cleanup, which stops polling. *)
Definition polling_effect (c : QueryClient)
  : QueryClient * (QueryClient → QueryClient) :=
  (startPolling POLL_INTERVAL c, λ c', stopPolling c').

(** React's handling of one effect. A mount runs the effect and keeps its
    cleanup; a later render runs the cleanup and the effect again when a
    dependency changed, and nothing otherwise; an unmount runs the cleanup.
    [cleanup] is the cleanup kept while the component is mounted. *)
Inductive lifecycle := Mount | Render (depsChanged : bool) | Unmount.

Record view := {
  client : QueryClient;
  cleanup : option (QueryClient → QueryClient);
}.

Definition unmounted (c : QueryClient) : view :=
  {| client := c; cleanup := None |}.

Definition step (ev : lifecycle) (v : view) : option view :=
  match ev, cleanup v with
  | Mount, None =>
      let '(c, f) := polling_effect (client v) in
      Some {| client := c; cleanup := Some f |}
  | Render false, Some _ => Some v
  | Render true, Some f =>
      let '(c, f') := polling_effect (f (client v)) in
      Some {| client := c; cleanup := Some f' |}
  | Unmount, Some f => Some {| client := f (client v); cleanup := None |}
  | _, _ => None
  end.

Fixpoint run (evs : list lifecycle) (v : view) : option view :=
  match evs with
  | [] => Some v
  | ev :: evs => step ev v ≫= run evs
  end.

(** One life of the view: a mount, [renders] further renders with the
    same [startPolling] and [stopPolling], an unmount. *)
Definition cycle (renders : nat) : list lifecycle :=
  Mount :: replicate renders (Render false) ++ [Unmount].

(** A client that never polled, and the numbers of starts and stops among
    the calls a client received. *)
Definition fresh_client : QueryClient := {| pollInterval := None; calls := [] |}.

#[export] Instance poll_call_eq_dec : EqDecision poll_call.
Proof. solve_decision. Defined.

Definition starts (l : list poll_call) : nat :=
  length (filter (λ c, c ≠ StopPolling) l).

Definition stops (l : list poll_call) : nat :=
  length (filter (λ c, c = StopPolling) l).

(** What holds of a view after any lifecycle React can produce from a
    fresh client, renders with changed dependencies included: the kept
    cleanup stops polling, the timer runs exactly while the view is
    mounted, and the starts exceed the stops by the one that is pending. *)
Definition paired (v : view) : Prop :=
  match cleanup v with
  | Some f =>
      (∀ c, f c = stopPolling c)
      ∧ pollInterval (client v) = Some 2000
      ∧ starts (calls (client v)) = S (stops (calls (client v)))
  | None =>
      pollInterval (client v) = None
      ∧ starts (calls (client v)) = stops (calls (client v))
  end.

(** *** The events of the view

    The grid calls [onSortChange] and [onSearchChange], the button and the
    dialog call [handleNewEntityClick]; each event runs the handler of the
    latest render on the current state. *)

Inductive action :=
| SortChange (fieldName : string) (order : option Z)
| SearchChange (value : string)
| NewEntityClick.

Definition dispatch (a : action) (st : state) : state :=
  match a with
  | SortChange fieldName order => handleSortChange fieldName order st
  | SearchChange value => handleSearchChange value st
  | NewEntityClick => click_new_entity st
  end.

Definition dispatch_all (l : list action) (st : state) : state :=
  foldl (λ st a, dispatch a st) st l.

Definition is_sort (a : action) : bool :=
  match a with SortChange _ _ => true | _ => false end.

Definition is_search (a : action) : bool :=
  match a with SearchChange _ => true | _ => false end.

Definition is_click (a : action) : bool :=
  match a with NewEntityClick => true | _ => false end.

(** [n] starts of the polling, each followed by its stop. *)
Definition polling_pairs (n : nat) : list poll_call :=
  mjoin (replicate n [StartPolling POLL_INTERVAL; StopPolling]).

(** The calls a client received from a fresh start alternate: whole
    pairs, and one more start exactly while the view is mounted, whose
    kept cleanup stops the polling. *)
Definition alternating (v : view) : Prop :=
  ∃ n,
    match cleanup v with
    | Some f =>
        (∀ c, f c = stopPolling c)
        ∧ pollInterval (client v) = Some POLL_INTERVAL
        ∧ calls (client v) = polling_pairs n ++ [StartPolling POLL_INTERVAL]
    | None =>
        pollInterval (client v) = None
        ∧ calls (client v) = polling_pairs n
    end.

(** *** The render *)

Record TData := { entities : list Entity }.

Record QueryResult := {
  data : option TData;
  loading : bool;
  error : option Error;
}.

Record DataField := {
  df_name : string;
  df_title : string;
  df_sortable : option bool;
  df_minWidth : option bool;
}.

Definition fields : list DataField :=
  [ {| df_name := "lockedByUserId"; df_title := "L";
       df_sortable := None; df_minWidth := Some true |};
    {| df_name := "displayName"; df_title := "Name";
       df_sortable := Some true; df_minWidth := None |};
    {| df_name := "description"; df_title := "Description";
       df_sortable := Some true; df_minWidth := None |};
    {| df_name := "versionNumber"; df_title := "Version";
       df_sortable := None; df_minWidth := None |};
    {| df_name := "lastCommitAt"; df_title := "Last Commit";
       df_sortable := None; df_minWidth := None |} ].

Definition PBool_opt (b : option bool) : prop :=
  match b with Some b => PBool b | None => PUndefined end.

Definition prop_of_DataField (f : DataField) : prop :=
  PObject [("name", PString (df_name f)); ("title", PString (df_title f));
           ("sortable", PBool_opt (df_sortable f));
           ("minWidth", PBool_opt (df_minWidth f))].

Definition prop_of_sortData (s : sortData) : prop :=
  PObject [("field", match field s with Some f => PString f | None => PNull end);
           ("order", match order s with Some o => PNumber o | None => PNull end)].

(** [<UserAvatar firstName=... lastName=... />] for an optional account. *)
Definition UserAvatar (a : option Account) : node :=
  Element "UserAvatar"
    [("firstName", PString_opt (firstName <$> a));
     ("lastName", PString_opt (lastName <$> a))] [].

(** [x && <UserAvatar ... />]: nothing when [x] is absent. *)
Definition and_then {A} (x : option A) (render : A → node) : node :=
  match x with
  | Some a => render a
  | None => Nothing
  end.

(** The callback of [data?.entities.map]. [const [latestVersion] =
    entity.entityVersions] binds the first version or [undefined]; the
    reads of [latestVersion.versionNumber] and [latestVersion.commit] are
    not guarded. *)
Definition renderRow (applicationId : string) (entity : Entity)
  : completion node :=
  let latestVersion := head (entityVersions entity) in
  let url := "/" +:+ applicationId +:+ "/entities/" +:+ id entity in
  versionNumber' ← get "versionNumber" versionNumber latestVersion;
  commit' ← get "commit" commit latestVersion;
  mret (Element "DataGridRow" [("navigateUrl", PString url)]
    [ Element "DataTableCell" [("className", PString "min-width")]
        [ and_then (lockedByUser entity) (λ u, UserAvatar (account u)) ];
      Element "DataTableCell" []
        [ Element "Link"
            [("className", PString "amp-data-grid-item--navigate");
             ("title", PString (displayName entity));
             ("to", PString url)]
            [ Element "span" [("className", PString "text-medium")]
                [ Text (displayName entity) ] ] ];
      Element "DataTableCell" [] [ Text_opt (description entity) ];
      Element "DataTableCell" [] [ Text "V"; Number versionNumber' ];
      Element "DataTableCell" []
        [ and_then commit' (λ c, UserAvatar (user c ≫= account));
          Element "span" [("className", PString "text-medium space-before")]
            [ Text_opt (models.message <$> commit'); Text " " ];
          Element "span" [("className", PString "text-muted space-before")]
            [ Text_opt (createdAt <$> commit') ] ] ]).

(** The error of reading [versionNumber] of an absent latest version. *)
Definition no_latest_version : Error :=
  {| JS.name := "TypeError";
     JS.message := "Cannot read property 'versionNumber' of undefined" |}.

(** [data?.entities.map(...)]: [undefined] without data, else the array of
    rows; the first row that throws ends the render. *)
Definition renderRows (applicationId : string) (data : option TData)
  : completion node :=
  match data with
  | None => mret Nothing
  | Some d => Fragment <$> mapM (renderRow applicationId) (entities d)
  end.

Section render.

(** [formatError] of [util/error], which turns the error of a query into
    the message to show, or [undefined] when there is none. *)
Variable formatError : option Error → option string.

Definition render (applicationId : string) (st : state) (q : QueryResult)
  : completion node :=
  let errorMessage := formatError (error q) in
  rows ← renderRows applicationId (data q);
  mret (Fragment
    [ Element "Dialog"
        [("className", PString "new-entity-dialog");
         ("isOpen", PBool (newEntity st));
         ("onDismiss", PCallback "handleNewEntityClick");
         ("title", PString "New Entity")]
        [ Element "NewEntity" [("applicationId", PString applicationId)] [] ];
      Element "DataGrid"
        [("fields", PArray (prop_of_DataField <$> fields));
         ("title", PString "Entities");
         ("titleType", PConst "EnumTitleType.PageTitle");
         ("loading", PBool (loading q));
         ("sortDir", prop_of_sortData (sortDir st));
         ("onSortChange", PCallback "handleSortChange");
         ("onSearchChange", PCallback "handleSearchChange");
         ("toolbarContentEnd",
          PNode (Element "Button"
                   [("buttonStyle", PConst "EnumButtonStyle.Primary");
                    ("onClick", PCallback "handleNewEntityClick")]
                   [ Text "Create New" ]))]
        [ rows ];
      Element "Snackbar"
        [("open", PBool (Boolean (error q)));
         ("message", PString_opt errorMessage)] [] ]).

End render.

End EntityList.

(** ** [hooks/useGitSelected.tsx] *)

Module useGitSelected.
Import JS models.

(** The variables of [ENABLE_SYNC_WITH_GITHUB]; [githubBranch] is the
    nullable one. *)
Record MutationVariables := {
  var_githubRepo : string;
  var_githubBranch : option string;
  var_appId : string;
}.

Record MutationOptions := { variables : MutationVariables }.

(** What the hook does to the world outside: the mutations it sends, the
    runs of [onCompleted], the errors written to the console, and the
    rejections no handler took, which the runtime reports. *)
Inductive event :=
| MutationSent (options : MutationOptions)
| CompletedCallback
| ConsoleError (e : Error)
| UnhandledRejection (e : Error).

Definition world := list event.

#[export] Instance Error_eq_dec : EqDecision Error.
Proof. solve_decision. Defined.
#[export] Instance MutationVariables_eq_dec : EqDecision MutationVariables.
Proof. solve_decision. Defined.
#[export] Instance MutationOptions_eq_dec : EqDecision MutationOptions.
Proof. solve_decision. Defined.
#[export] Instance event_eq_dec : EqDecision event.
Proof. solve_decision. Defined.

(** [onCompleted] is optional. A run of the callback returns or throws,
    which may depend on all that happened before; the run is recorded, and
    what else the callback does is not the hook's. *)
Record Props := {
  appId : string;
  onCompleted : option (world → completion unit);
}.

(** [p.catch(onRejected)]: the handler runs on the reason of a rejected
    promise and the new promise settles with what the handler did; a
    fulfilled promise passes through. *)
Definition promise_catch {A} (p : promise A)
    (onRejected : Error → world → completion unit * world) (w : world)
  : promise (option A) * world :=
  match p with
  | Fulfilled a => (Fulfilled (Some a), w)
  | Rejected reason =>
      match onRejected reason w with
      | (Normal _, w') => (Fulfilled None, w')
      | (Throw e, w') => (Rejected e, w')
      end
  end.

(** A promise nobody holds any more: a rejection is reported. *)
Definition drop_promise {A} (p : promise A) (w : world) : world :=
  match p with
  | Fulfilled _ => w
  | Rejected reason => w ++ [UnhandledRejection reason]
  end.

Definition console_error (e : Error) (w : world) : completion unit * world :=
  (Normal (), w ++ [ConsoleError e]).

Section hook.

(** The answer of the backend to a mutation: the updated application, or
    the error the mutation fails with. *)
Variable backend : MutationVariables → App + Error.

Variable props : Props.

(** The call of the mutate function of [useMutation(ENABLE_SYNC_WITH_GITHUB,
    { onCompleted })]: the mutation is sent, and the promise the call
    returns is pending. *)
Definition send_mutation (options : MutationOptions) (w : world) : world :=
  w ++ [MutationSent options].

(** The settlement of that promise, some time after the call. A failed
    mutation rejects it. After a mutation that succeeded the client runs
    [onCompleted] when it is given; an error the callback throws rejects
    the promise, since the hook passes no [onError]. *)
Definition settle_mutation (options : MutationOptions) (w : world)
  : promise App * world :=
  match backend (variables options) with
  | inl app =>
      match onCompleted props with
      | Some callback =>
          match callback w with
          | Normal _ => (Fulfilled app, w ++ [CompletedCallback])
          | Throw e => (Rejected e, w ++ [CompletedCallback])
          end
      | None => (Fulfilled app, w)
      end
  | inr e => (Rejected e, w)
  end.

(** The mutate function followed to the settlement of its promise, with
    nothing happening in between. *)
Definition enableSyncWithGithub (options : MutationOptions) (w : world)
  : promise App * world :=
  settle_mutation options (send_mutation options w).

(** [handleRepoSelected], followed to the settlement of the promise it
    leaves behind: the promise of the mutation gets [console.error] as its
    rejection handler, the promise [catch] returns is dropped, and the
    function returns [undefined]. *)
Definition handleRepoSelected (data : GitRepo) (w : world)
  : completion unit * world :=
  let '(p, w) :=
    enableSyncWithGithub
      {| variables := {| var_githubRepo := fullName data;
                         var_githubBranch := None;
                         var_appId := appId props |} |} w in
  let '(p', w) := promise_catch p console_error w in
  (Normal (), drop_promise p' w).

(** *** Selections that overlap

    The handler does not wait for the mutation: it returns with the
    promise pending, and the user may select again before it settles. The
    pending promises settle one at a time, in any order. *)

Definition options_of (data : GitRepo) : MutationOptions :=
  {| variables := {| var_githubRepo := fullName data;
                     var_githubBranch := None;
                     var_appId := appId props |} |}.

(** The world, and the mutations whose promises are pending, oldest
    first. *)
Record hook_state := {
  log : world;
  pending : list MutationOptions;
}.

Inductive hook_event :=
| Select (data : GitRepo)
| Settle (i : nat).

(** What the call of [handleRepoSelected] does before it returns. *)
Definition select (data : GitRepo) (s : hook_state) : hook_state :=
  {| log := send_mutation (options_of data) (log s);
     pending := pending s ++ [options_of data] |}.

(** The settlement of a pending promise with the handlers the call
    attached: [catch(console.error)], whose promise nobody holds. *)
Definition settle (options : MutationOptions) (w : world) : world :=
  let '(p, w) := settle_mutation options w in
  let '(p', w) := promise_catch p console_error w in
  drop_promise p' w.

Definition hook_step (ev : hook_event) (s : hook_state) : option hook_state :=
  match ev with
  | Select data => Some (select data s)
  | Settle i =>
      options ← pending s !! i;
      Some {| log := settle options (log s); pending := delete i (pending s) |}
  end.

Fixpoint hook_run (evs : list hook_event) (s : hook_state)
  : option hook_state :=
  match evs with
  | [] => Some s
  | ev :: evs => hook_step ev s ≫= hook_run evs
  end.

(** The error a mutation fails with, if it fails. *)
Definition failure_of (options : MutationOptions) : option Error :=
  match backend (variables options) with
  | inl _ => None
  | inr e => Some e
  end.

End hook.

Definition idle : hook_state := {| log := []; pending := [] |}.

(** The repositories selected and the number of settlements in a run. *)
Definition selections (evs : list hook_event) : list GitRepo :=
  omap (λ ev, match ev with Select data => Some data | _ => None end) evs.

Definition settlements (evs : list hook_event) : nat :=
  length (omap (λ ev, match ev with Settle i => Some i | _ => None end) evs).

(** The mutations a run of the hook sent. *)
Definition mutations_sent (w : world) : list MutationOptions :=
  omap (λ ev, match ev with MutationSent o => Some o | _ => None end) w.

(** The rejections of a run that nothing handled. *)
Definition unhandled (w : world) : list Error :=
  omap (λ ev, match ev with UnhandledRejection e => Some e | _ => None end) w.

(** The errors a run wrote to the console. *)
Definition console (w : world) : list Error :=
  omap (λ ev, match ev with ConsoleError e => Some e | _ => None end) w.

(** The runs of [onCompleted] in a run of the hook. *)
Definition completed_runs (w : world) : nat :=
  length (filter (λ ev, ev = CompletedCallback) w).

(** The user selects the repositories of [repos], one after the other. *)
Definition select_all (backend : MutationVariables → App + Error)
    (props : Props) (repos : list GitRepo) (w : world) : world :=
  foldl (λ w data, snd (handleRepoSelected backend props data w)) w repos.

End useGitSelected.

(** ** Sample data *)

Module samples.
Import JS models.

(** An entity nobody locked, whose one version has no commit. *)
Definition customer : Entity :=
  {| id := "e-1"; displayName := "Customer"; description := Some "A customer";
     lockedByUserId := None; lockedAt := None; lockedByUser := None;
     entityVersions := [ {| versionNumber := 3; commit := None |} ] |}.

(** An entity returned without any version. *)
Definition orphan : Entity :=
  {| id := "e-2"; displayName := "Orphan"; description := None;
     lockedByUserId := None; lockedAt := None; lockedByUser := None;
     entityVersions := [] |}.

(** An entity locked by a user without account, whose latest version has
    a commit; an older version follows. *)
Definition invoice : Entity :=
  {| id := "e-3"; displayName := "Invoice"; description := None;
     lockedByUserId := Some "u-1"; lockedAt := Some "2020-09-01";
     lockedByUser := Some {| account := None |};
     entityVersions :=
       [ {| versionNumber := 3;
            commit := Some {| userId := "u-2"; models.message := "add total";
                              createdAt := "2020-08-30";
                              user := Some {| account :=
                                Some {| firstName := "Ada";
                                        lastName := "Lovelace" |} |} |} |};
         {| versionNumber := 2; commit := None |} ] |}.

Definition network_error : Error :=
  {| JS.name := "Error"; JS.message := "Network error: Failed to fetch" |}.

(** A [formatError] that shows the message of the error. *)
Definition message_of (e : option Error) : option string := JS.message <$> e.

Definition org_repo : GitRepo := {| fullName := "org/repo" |}.

(** A backend on which every mutation fails. *)
Definition failing_backend {A} (_ : A) : App + Error := inr network_error.

(** A backend that enables the synchronisation. *)
Definition enabling_backend (repo : string) : App + Error :=
  inl {| app_id := "app-1"; githubSyncEnabled := true;
         githubRepo := Some repo; githubBranch := None |}.

End samples.

(** * Properties *)

Import JS models React.

(** ** Sorting, searching and the dialog flag *)

Section EntityList_state.
Import EntityList.

Lemma or_else_Some_nonempty (s d : string) : s ≠ "" → or_else (Some s) d = s.
Proof. intros Hs. unfold or_else. by destruct (decide (s = "")). Qed.

Lemma or_else_falsy (a : option string) (d : string) :
  a = None ∨ a = Some "" → or_else a d = d.
Proof. by intros [-> | ->]. Qed.

Lemma handleSortChange_order (fieldName : string) (o : option Z) (st : state) :
  order (sortDir (handleSortChange fieldName o st)) = Some (default 1 o).
Proof. by destruct o. Qed.

Lemma handleSortChange_field (fieldName : string) (o : option Z) (st : state) :
  field (sortDir (handleSortChange fieldName o st)) = Some fieldName.
Proof. done. Qed.

(** The initial state, which never went through [handleSortChange], sorts
    by display name, ascending. *)
Lemma initial_orderBy (applicationId : string) :
  orderBy (variables applicationId initial_state) = {[ "displayName" := Asc ]}.
Proof. done. Qed.

(** C1, as the spec states it, fails: after [handleSortChange "description"
    null] the query orders by description, descending. *)
Lemma setSort_null_not_ascending :
  orderBy (variables "app-1"
             (handleSortChange "description" None initial_state))
    !! "description" = Some Desc
  ∧ orderBy (variables "app-1"
               (handleSortChange "description" None initial_state))
      !! "description" ≠ Some Asc.
Proof. split; [by vm_compute | by vm_compute]. Qed.

(** C1, amended: [handleSortChange field null] stores the order [1], and
    the [orderBy] of the derived query variables maps the sort key (the
    field, or the display name when the field is the empty string) to
    descending order. *)
Theorem setSort_null_is_descending
    (applicationId fieldName : string) (st : state) :
  let st' := handleSortChange fieldName None st in
  order (sortDir st') = Some 1
  ∧ orderBy (variables applicationId st')
    = {[ (if decide (fieldName = "") then "displayName" else fieldName) := Desc ]}.
Proof. done. Qed.

(** C2, as the spec states it, fails: a sort field set to the empty string
    is not the key of [orderBy]; the display name is. *)
Lemma orderBy_key_empty_field :
  field (sortDir (handleSortChange "" (Some 1) initial_state)) = Some ""
  ∧ orderBy (variables "app-1" (handleSortChange "" (Some 1) initial_state))
      !! "" = None
  ∧ orderBy (variables "app-1" (handleSortChange "" (Some 1) initial_state))
      !! "displayName" = Some Desc.
Proof. split; [done | split; by vm_compute]. Qed.

(** C2, amended: the one key of [orderBy] is the sort field when it is set
    and not the empty string, and ["displayName"] when it is unset or the
    empty string. *)
Theorem orderBy_key (applicationId : string) (st : state) :
  dom (orderBy (variables applicationId st))
  = {[ match field (sortDir st) with
       | Some f => if decide (f = "") then "displayName" else f
       | None => "displayName"
       end ]}.
Proof. unfold variables; simpl. by rewrite dom_singleton_L. Qed.

(** C3: the query variables carry no name filter exactly when the search
    phrase is the empty string, and for a phrase that is not empty they
    carry the filter that contains this phrase, case-insensitively. *)
Theorem whereName_of_searchPhrase
    (applicationId phrase : string) (st : state) :
  let v := variables applicationId (handleSearchChange phrase st) in
  (whereName v = None ↔ phrase = "")
  ∧ (phrase ≠ "" →
     whereName v = Some {| contains := phrase; mode := Insensitive |}).
Proof.
  unfold variables, handleSearchChange; simpl.
  destruct (decide (phrase ≠ "")) as [Hne | Heq].
  - split; [split; [done | by intros ->] | done].
  - apply dec_stable in Heq. split; [done | by intros []].
Qed.

Lemma whereName_of_searchPhrase_witness :
  let v := variables "app-1" (handleSearchChange "user" initial_state) in
  (whereName v = None ↔ "user" = "")
  ∧ whereName v = Some {| contains := "user"; mode := Insensitive |}.
Proof.
  destruct (whereName_of_searchPhrase "app-1" "user" initial_state) as [H1 H2].
  split; [exact H1 | apply H2; discriminate].
Defined.

(** C4: every click on the create button, or dismissal of the dialog,
    flips the dialog flag, and two of them restore the state. *)
Theorem toggle_involution (st : state) :
  newEntity (click_new_entity st) = negb (newEntity st)
  ∧ click_new_entity (click_new_entity st) = st.
Proof.
  split; [done |].
  destruct st as [s p n]. unfold click_new_entity, handleNewEntityClick,
    setNewEntity; simpl. by rewrite negb_involutive.
Qed.

(** The callback of one render, run twice without a render in between,
    sets the flag to the same value twice. *)
Lemma stale_toggle (st : state) :
  let f := handleNewEntityClick (newEntity st) in
  f (f st) = f st.
Proof. done. Qed.

End EntityList_state.

(** ** The polling effect *)

Section EntityList_polling.
Import EntityList.

Lemma run_app (evs1 evs2 : list lifecycle) (v : view) :
  run (evs1 ++ evs2) v = run evs1 v ≫= run evs2.
Proof.
  revert v. induction evs1 as [| ev evs1 IH]; intros v; simpl; [done |].
  destruct (step ev v) as [v' |]; simpl; [apply IH | done].
Qed.

(** Renders that leave the dependencies alone leave a mounted view as it
    is. *)
Lemma run_stable_renders (n : nat) (c : QueryClient) (f : QueryClient → QueryClient) :
  run (replicate n (Render false)) {| client := c; cleanup := Some f |}
  = Some {| client := c; cleanup := Some f |}.
Proof. induction n as [| n IH]; simpl; [done | exact IH]. Qed.

Lemma run_cycle (n : nat) (c : QueryClient) :
  run (cycle n) (unmounted c)
  = Some (unmounted (stopPolling (startPolling POLL_INTERVAL c))).
Proof.
  unfold cycle; simpl. by rewrite run_app, run_stable_renders.
Qed.

Lemma run_cycles (lives : list nat) (c : QueryClient) :
  pollInterval c = None →
  run (lives ≫= cycle) (unmounted c)
  = Some (unmounted
            {| pollInterval := None;
               calls := calls c ++
                        (lives ≫= λ _, [StartPolling 2000; StopPolling]) |}).
Proof.
  revert c. induction lives as [| n lives IH]; intros [p l] Hp; simpl in Hp.
  - subst p. simpl. by rewrite app_nil_r.
  - rewrite !bind_cons, run_app, run_cycle. simpl. rewrite IH by done. simpl.
    by rewrite <- !app_assoc.
Qed.

Lemma starts_snoc (l : list poll_call) (c : poll_call) :
  starts (l ++ [c]) = (starts l + if decide (c = StopPolling) then 0 else 1)%nat.
Proof.
  unfold starts. rewrite filter_app, length_app. f_equal.
  destruct c; by vm_compute.
Qed.

Lemma stops_snoc (l : list poll_call) (c : poll_call) :
  stops (l ++ [c]) = (stops l + if decide (c = StopPolling) then 1 else 0)%nat.
Proof.
  unfold stops. rewrite filter_app, length_app. f_equal.
  destruct c; by vm_compute.
Qed.

Lemma step_paired (ev : lifecycle) (v v' : view) :
  paired v → step ev v = Some v' → paired v'.
Proof.
  unfold paired, step. destruct v as [c [f |]]; simpl.
  - intros (Hf & Hp & Hn). destruct ev as [| [|] |]; intros [= <-]; simpl.
    + rewrite Hf; simpl. rewrite !starts_snoc, !stops_snoc; simpl.
      split; [done | split; [done | lia]].
    + done.
    + rewrite Hf; simpl. rewrite !starts_snoc, !stops_snoc; simpl.
      split; [done | lia].
  - intros (Hp & Hn). destruct ev as [| [|] |]; intros [= <-]; simpl.
    rewrite !starts_snoc, !stops_snoc; simpl.
    split; [done | split; [done | lia]].
Qed.

Lemma run_paired (evs : list lifecycle) (v v' : view) :
  paired v → run evs v = Some v' → paired v'.
Proof.
  revert v. induction evs as [| ev evs IH]; intros v Hv; simpl.
  - by intros [= <-].
  - destruct (step ev v) as [v1 |] eqn:Hstep; simpl; [| done].
    apply IH. by eapply step_paired.
Qed.

(** C5: a mount starts polling once, at the interval 2000; the unmount
    that follows stops it once; and over any number of lives of the view,
    each with any number of renders in between, the client sees one start
    and then one stop per life, and no timer is left when the view is
    gone. *)
Theorem polling_paired_with_view (c : QueryClient) (lives : list nat) :
  (∃ f,
     step Mount (unmounted c)
     = Some {| client := {| pollInterval := Some 2000;
                            calls := calls c ++ [StartPolling 2000] |};
               cleanup := Some f |}
     ∧ step Unmount
         {| client := {| pollInterval := Some 2000;
                         calls := calls c ++ [StartPolling 2000] |};
            cleanup := Some f |}
       = Some (unmounted
                 {| pollInterval := None;
                    calls := calls c ++ [StartPolling 2000; StopPolling] |}))
  ∧ run (lives ≫= cycle) (unmounted fresh_client)
    = Some (unmounted
              {| pollInterval := None;
                 calls := lives ≫= λ _, [StartPolling 2000; StopPolling] |}).
Proof.
  split.
  - eexists. split; [reflexivity |]. simpl. unfold stopPolling; simpl.
    by rewrite <- app_assoc.
  - by rewrite run_cycles.
Qed.

(** The same for every lifecycle, renders that change the dependencies
    included: once the view is unmounted no timer runs, and every start
    has had its stop. *)
Lemma unmounted_view_has_no_timer (evs : list lifecycle) (v : view) :
  run evs (unmounted fresh_client) = Some v →
  cleanup v = None →
  pollInterval (client v) = None
  ∧ starts (calls (client v)) = stops (calls (client v)).
Proof.
  intros Hrun Hc.
  assert (paired v) as Hv by (eapply run_paired; [| exact Hrun]; by split).
  unfold paired in Hv. by rewrite Hc in Hv.
Qed.

End EntityList_polling.

(** ** The render *)

Section EntityList_render.
Import EntityList.

Lemma append_empty_r (s : string) : s +:+ "" = s.
Proof.
  induction s as [| a s IH]; [done |].
  change (String a (s +:+ "") = String a s). by rewrite IH.
Qed.

Lemma mapM_Normal {A B} (f : A → completion B) (l : list A) :
  (∀ x, x ∈ l → ∃ y, f x = Normal y) → ∃ ys, mapM f l = Normal ys.
Proof.
  induction l as [| x l IH]; intros Hl; simpl.
  - by eexists.
  - destruct (Hl x) as [y Hy]; [by left |].
    destruct IH as [ys Hys]; [intros x' Hx'; apply Hl; by right |].
    rewrite Hy, Hys. by eexists.
Qed.

Lemma mapM_Normal_Forall2 {A B} (f : A → completion B) (l : list A) (ys : list B) :
  mapM f l = Normal ys → Forall2 (λ x y, f x = Normal y) l ys.
Proof.
  revert ys. induction l as [| x l IH]; intros ys; simpl.
  - intros [= <-]. constructor.
  - destruct (f x) as [y | e] eqn:Hx; simpl; [| done].
    destruct (mapM f l) as [ys' | e]; simpl; [| done].
    intros [= <-]. constructor; [done | by apply IH].
Qed.

Lemma mapM_Throw {A B} (f : A → completion B) (l : list A) (e : Error) :
  mapM f l = Throw e → ∃ x, x ∈ l ∧ f x = Throw e.
Proof.
  induction l as [| x l IH]; simpl; [done |].
  destruct (f x) as [y | e'] eqn:Hx; simpl.
  - destruct (mapM f l) as [ys | e'']; simpl; [done |].
    intros [= ->]. destruct IH as (x' & Hin & Hx'); [done |].
    exists x'. split; [by right | done].
  - intros [= ->]. exists x. split; [by left | done].
Qed.

Lemma mapM_Throw_same {A B} (f : A → completion B) (l : list A) (e : Error) :
  (∀ x e', f x = Throw e' → e' = e) →
  (∃ x, x ∈ l ∧ f x = Throw e) → mapM f l = Throw e.
Proof.
  intros Hsame. induction l as [| x l IH]; intros (x0 & Hin & Hx0).
  - by apply elem_of_nil in Hin.
  - simpl. destruct (f x) as [y | e'] eqn:Hx; simpl.
    + apply elem_of_cons in Hin as [-> | Hin]; [congruence |].
      rewrite IH; [done | by exists x0].
    + f_equal. by eapply Hsame.
Qed.

Lemma renderRow_Throw (applicationId : string) (entity : Entity) (e : Error) :
  renderRow applicationId entity = Throw e ↔
  entityVersions entity = [] ∧ e = no_latest_version.
Proof.
  unfold renderRow. destruct (entityVersions entity) as [| v vs]; simpl.
  - split; [by intros [= <-] | by intros [_ ->]].
  - split; [done | by intros [? _]].
Qed.

Lemma renderRow_Normal (applicationId : string) (entity : Entity) :
  entityVersions entity ≠ [] → ∃ row, renderRow applicationId entity = Normal row.
Proof.
  intros Hne. destruct (renderRow applicationId entity) as [row | e] eqn:Hr.
  - by eexists.
  - apply renderRow_Throw in Hr as [? _]. done.
Qed.

Lemma renderRows_Throw (applicationId : string) (d : TData) :
  renderRows applicationId (Some d) = Throw no_latest_version ↔
  ∃ entity, entity ∈ entities d ∧ entityVersions entity = [].
Proof.
  unfold renderRows. split.
  - destruct (mapM _ _) as [rows | e] eqn:Hm; simpl; [done |].
    intros [= ->]. apply mapM_Throw in Hm as (entity & Hin & He).
    apply renderRow_Throw in He as [He _]. by exists entity.
  - intros (entity & Hin & He).
    rewrite (mapM_Throw_same _ _ no_latest_version); [done | |].
    + intros x e' Hx. by apply renderRow_Throw in Hx as [_ ->].
    + exists entity. split; [done |]. by apply renderRow_Throw.
Qed.

Lemma render_Throw (formatError : option Error → option string)
    (applicationId : string) (st : state) (q : QueryResult) (e : Error) :
  render formatError applicationId st q = Throw e ↔
  renderRows applicationId (data q) = Throw e.
Proof.
  unfold render. destruct (renderRows _ _) as [rows | e']; simpl; [done |].
  done.
Qed.


(** C9: a row of an entity without lock owner whose latest version has no
    commit renders; it holds no avatar, its lock cell is empty, its version
    cell reads ["V"] followed by the version number, and its commit cell
    holds nothing but the blank between the two spans' contents. *)
Theorem row_without_lock_and_commit
    (applicationId : string) (entity : Entity)
    (v : EntityVersion) (vs : list EntityVersion) :
  lockedByUser entity = None →
  entityVersions entity = v :: vs →
  commit v = None →
  ∃ row lock version last,
    renderRow applicationId entity = Normal row
    ∧ count "UserAvatar" row = 0%nat
    ∧ children_of row !! 0%nat = Some lock
    ∧ children_of lock = [Nothing]
    ∧ children_of row !! 3%nat = Some version
    ∧ textContent version = "V" +:+ String_of_number (versionNumber v)
    ∧ children_of row !! 4%nat = Some last
    ∧ textContent last = " ".
Proof.
  intros Hlock Hvs Hcommit. unfold renderRow. rewrite Hlock, Hvs; simpl.
  rewrite Hcommit; simpl. do 4 eexists.
  split; [reflexivity |]. split; [by destruct (description entity) |].
  split; [reflexivity |]. split; [reflexivity |].
  split; [reflexivity |]. split; [| split; [reflexivity | reflexivity]].
  simpl. by rewrite append_empty_r.
Qed.

(** C10: the render of data fails with the [TypeError] of reading
    [versionNumber] of [undefined] exactly when some returned entity has
    no entity version, and the row of such an entity fails that way. *)
Theorem render_needs_a_version
    (formatError : option Error → option string)
    (applicationId : string) (st : state)
    (d : TData) (l : bool) (err : option Error) :
  (∀ entity,
     entityVersions entity = [] ↔
     renderRow applicationId entity = Throw no_latest_version)
  ∧ ((∃ entity, entity ∈ entities d ∧ entityVersions entity = []) ↔
     render formatError applicationId st
       {| data := Some d; loading := l; error := err |}
     = Throw no_latest_version)
  ∧ ((∀ entity, entity ∈ entities d → entityVersions entity ≠ []) ↔
     ∃ t, render formatError applicationId st
            {| data := Some d; loading := l; error := err |} = Normal t).
Proof.
  split; [| split].
  - intros entity. rewrite renderRow_Throw. split; [done | by intros [? _]].
  - rewrite render_Throw. symmetry. apply renderRows_Throw.
  - split.
    + intros Hall. unfold render; simpl.
      destruct (mapM_Normal (renderRow applicationId) (entities d)) as [rows Hr].
      { intros x Hx. by apply renderRow_Normal, Hall. }
      rewrite Hr; simpl. by eexists.
    + intros [t Ht] entity Hin He.
      assert (render formatError applicationId st
                {| data := Some d; loading := l; error := err |}
              = Throw no_latest_version) as Hthrow.
      { rewrite render_Throw. apply renderRows_Throw. by exists entity. }
      congruence.
Qed.

End EntityList_render.

Section EntityList_render_witnesses.
Import EntityList samples.


Lemma row_without_lock_and_commit_witness :
  ∃ row lock version last,
    renderRow "app-1" customer = Normal row
    ∧ count "UserAvatar" row = 0%nat
    ∧ children_of row !! 0%nat = Some lock
    ∧ children_of lock = [Nothing]
    ∧ children_of row !! 3%nat = Some version
    ∧ textContent version = "V3"
    ∧ children_of row !! 4%nat = Some last
    ∧ textContent last = " ".
Proof.
  exact (row_without_lock_and_commit "app-1" customer
           {| versionNumber := 3; commit := None |} []
           eq_refl eq_refl eq_refl).
Defined.

Lemma render_needs_a_version_witness :
  render message_of "app-1" initial_state
    {| data := Some {| entities := [customer; orphan] |}; loading := false;
       error := None |}
  = Throw no_latest_version.
Proof.
  apply (render_needs_a_version message_of "app-1" initial_state
           {| entities := [customer; orphan] |} false None).
  exists orphan. split; [| reflexivity].
  apply list_elem_of_In. right. left. reflexivity.
Defined.

End EntityList_render_witnesses.

(** ** The selection handler *)

Section useGitSelected_props.
Import useGitSelected samples.

Lemma mutations_sent_app (w1 w2 : world) :
  mutations_sent (w1 ++ w2) = mutations_sent w1 ++ mutations_sent w2.
Proof. apply omap_app. Qed.

Lemma unhandled_app (w1 w2 : world) :
  unhandled (w1 ++ w2) = unhandled w1 ++ unhandled w2.
Proof. apply omap_app. Qed.

Lemma console_app (w1 w2 : world) :
  console (w1 ++ w2) = console w1 ++ console w2.
Proof. apply omap_app. Qed.

(** What the settlement of the promise of a mutation adds to the world:
    the error of a failed mutation on the console; after a mutation that
    succeeded the run of the callback, if there is one, and on the console
    the error it throws, if it throws. *)
Lemma settle_run
    (backend : MutationVariables → App + Error) (props : Props)
    (options : MutationOptions) (w : world) :
  settle backend props options w
  = w ++
    match backend (variables options) with
    | inl _ =>
        match onCompleted props with
        | Some callback =>
            CompletedCallback ::
            match callback w with
            | Normal _ => []
            | Throw e => [ConsoleError e]
            end
        | None => []
        end
    | inr e => [ConsoleError e]
    end.
Proof.
  unfold settle, settle_mutation.
  destruct (backend _) as [app | e]; simpl; [| done].
  destruct (onCompleted props) as [callback |]; simpl.
  - destruct (callback w); simpl; [done | by rewrite <- app_assoc].
  - by rewrite app_nil_r.
Qed.

(** The handler, followed to the settlement: the call sends the mutation
    and returns, and the promise settles. *)
Lemma handleRepoSelected_run
    (backend : MutationVariables → App + Error) (props : Props)
    (data : GitRepo) (w : world) :
  handleRepoSelected backend props data w
  = (Normal (),
     settle backend props (options_of props data)
       (w ++ [MutationSent (options_of props data)])).
Proof.
  unfold handleRepoSelected, enableSyncWithGithub, settle, send_mutation,
    options_of.
  destruct (settle_mutation _ _ _ _) as [p w1].
  by destruct (promise_catch p console_error w1).
Qed.

Lemma settle_mutations_sent
    (backend : MutationVariables → App + Error) (props : Props)
    (options : MutationOptions) (w : world) :
  mutations_sent (settle backend props options w) = mutations_sent w.
Proof.
  rewrite settle_run, mutations_sent_app.
  destruct (backend _) as [app | e]; [| apply app_nil_r].
  destruct (onCompleted props) as [callback |]; [| apply app_nil_r].
  destruct (callback w); apply app_nil_r.
Qed.

Lemma settle_unhandled
    (backend : MutationVariables → App + Error) (props : Props)
    (options : MutationOptions) (w : world) :
  unhandled (settle backend props options w) = unhandled w.
Proof.
  rewrite settle_run, unhandled_app.
  destruct (backend _) as [app | e]; [| apply app_nil_r].
  destruct (onCompleted props) as [callback |]; [| apply app_nil_r].
  destruct (callback w); apply app_nil_r.
Qed.

(** C6: whatever the backend answers, the handler sends one mutation,
    whose variables are the full name of the selected repository, a null
    branch and the identifier of the application; so for ["org/repo"] and
    ["app-1"]. *)
Theorem handleRepoSelected_variables
    (backend : MutationVariables → App + Error) (props : Props)
    (data : GitRepo) (w : world) :
  mutations_sent (snd (handleRepoSelected backend props data w))
  = mutations_sent w ++
    [ {| variables := {| var_githubRepo := fullName data;
                         var_githubBranch := None;
                         var_appId := appId props |} |} ]
  ∧ ∀ completed,
      mutations_sent
        (snd (handleRepoSelected backend
                {| appId := "app-1"; onCompleted := completed |}
                {| fullName := "org/repo" |} []))
      = [ {| variables := {| var_githubRepo := "org/repo";
                             var_githubBranch := None;
                             var_appId := "app-1" |} |} ].
Proof.
  assert (∀ p d w',
    mutations_sent (snd (handleRepoSelected backend p d w'))
    = mutations_sent w' ++
      [ {| variables := {| var_githubRepo := fullName d;
                           var_githubBranch := None;
                           var_appId := appId p |} |} ]) as Hsent.
  { intros p d w'. rewrite handleRepoSelected_run; simpl.
    by rewrite settle_mutations_sent, mutations_sent_app. }
  split; [apply Hsent |]. intros completed. by rewrite Hsent.
Qed.

(** C7: when the mutation fails, the handler returns normally, the error is
    written to the console, and no rejection is left unhandled. *)
Theorem handleRepoSelected_failure_is_logged
    (backend : MutationVariables → App + Error) (props : Props)
    (data : GitRepo) (w : world) (e : Error) :
  backend {| var_githubRepo := fullName data; var_githubBranch := None;
             var_appId := appId props |} = inr e →
  fst (handleRepoSelected backend props data w) = Normal ()
  ∧ console (snd (handleRepoSelected backend props data w)) = console w ++ [e]
  ∧ unhandled (snd (handleRepoSelected backend props data w)) = unhandled w.
Proof.
  intros Hfail. rewrite handleRepoSelected_run; cbn [fst snd].
  split; [done |]. split.
  - rewrite settle_run. cbn [options_of variables]. rewrite Hfail.
    rewrite !console_app. cbn. by rewrite app_nil_r.
  - rewrite settle_unhandled, unhandled_app. apply app_nil_r.
Qed.

Lemma handleRepoSelected_failure_is_logged_witness :
  fst (handleRepoSelected failing_backend
         {| appId := "app-1"; onCompleted := Some (λ _, Normal ()) |}
         org_repo []) = Normal ()
  ∧ console (snd (handleRepoSelected failing_backend
                    {| appId := "app-1"; onCompleted := Some (λ _, Normal ()) |}
                    org_repo []))
    = [network_error]
  ∧ unhandled (snd (handleRepoSelected failing_backend
                      {| appId := "app-1";
                         onCompleted := Some (λ _, Normal ()) |}
                      org_repo []))
    = [].
Proof.
  exact (handleRepoSelected_failure_is_logged failing_backend
           {| appId := "app-1"; onCompleted := Some (λ _, Normal ()) |}
           org_repo [] network_error eq_refl).
Defined.

(** The handler returns normally and leaves no rejection unhandled on
    every answer of the backend and whatever the callback does. *)
Lemma handleRepoSelected_never_throws
    (backend : MutationVariables → App + Error) (props : Props)
    (data : GitRepo) (w : world) :
  fst (handleRepoSelected backend props data w) = Normal ()
  ∧ unhandled (snd (handleRepoSelected backend props data w)) = unhandled w.
Proof.
  rewrite handleRepoSelected_run; simpl. split; [done |].
  rewrite settle_unhandled, unhandled_app; simpl. apply app_nil_r.
Qed.

(** On success a callback that returns runs once. *)
Example handleRepoSelected_success :
  snd (handleRepoSelected (λ v, enabling_backend (var_githubRepo v))
         {| appId := "app-1"; onCompleted := Some (λ _, Normal ()) |}
         org_repo [])
  = [ MutationSent
        {| variables := {| var_githubRepo := "org/repo";
                           var_githubBranch := None;
                           var_appId := "app-1" |} |};
      CompletedCallback ].
Proof. reflexivity. Qed.

End useGitSelected_props.

(** * Further properties *)

(** ** Sequences of events on the list view *)

Section EntityList_events.
Import EntityList samples.

Lemma dispatch_all_snoc (l : list action) (a : action) (st : state) :
  dispatch_all (l ++ [a]) st = dispatch a (dispatch_all l st).
Proof. unfold dispatch_all. by rewrite foldl_app. Qed.

Lemma dispatch_all_app (l1 l2 : list action) (st : state) :
  dispatch_all (l1 ++ l2) st = dispatch_all l2 (dispatch_all l1 st).
Proof. unfold dispatch_all. by rewrite foldl_app. Qed.

(** Events that are no sort change leave the sort cell alone; likewise for
    the other two cells. *)
Lemma dispatch_all_sortDir (l : list action) (st : state) :
  forallb (λ a, negb (is_sort a)) l = true →
  sortDir (dispatch_all l st) = sortDir st.
Proof.
  revert st. induction l as [| a l IH]; intros st; simpl; [done |].
  intros [Ha Hl]%andb_prop. rewrite IH by done. by destruct a.
Qed.

Lemma dispatch_all_searchPhrase (l : list action) (st : state) :
  forallb (λ a, negb (is_search a)) l = true →
  searchPhrase (dispatch_all l st) = searchPhrase st.
Proof.
  revert st. induction l as [| a l IH]; intros st; simpl; [done |].
  intros [Ha Hl]%andb_prop. rewrite IH by done. by destruct a.
Qed.

(** X1: after [handleSortChange field order] the query orders by the sort
    key, descending when the order is [null] or [1] and ascending for
    every other number. *)
Theorem sort_direction_of_order
    (applicationId fieldName : string) (o : option Z) (st : state) :
  orderBy (variables applicationId (handleSortChange fieldName o st))
  = {[ or_else (Some fieldName) NAME_FIELD :=
         match o with
         | None => Desc
         | Some n => if decide (n = 1) then Desc else Asc
         end ]}.
Proof.
  unfold variables; simpl. f_equal. destruct o as [n |]; simpl; [| done].
  destruct (decide (n = 1)) as [-> | Hn]; [done |].
  destruct (decide (Some n = Some 1)) as [[= ?] | _]; done.
Qed.

(** X2: whatever the events since the initial state, the sort cell is the
    initial one, with field and order both [null], or has both set; the
    order is never [null] beside a field. *)
Theorem sort_cell_invariant (l : list action) :
  let s := sortDir (dispatch_all l initial_state) in
  (s = INITIAL_SORT_DATA ∧ forallb (λ a, negb (is_sort a)) l = true)
  ∨ (∃ f o, s = {| field := Some f; order := Some o |}
            ∧ existsb is_sort l = true).
Proof.
  induction l as [| a l IH] using rev_ind; simpl; [by left |].
  rewrite dispatch_all_snoc, forallb_app, existsb_app; simpl.
  destruct a as [f o | v |]; simpl.
  - right. exists f, (default 1 o). split; [by destruct o |].
    by rewrite orb_true_r.
  - destruct IH as [[-> ->] | (f & o & -> & ->)]; [by left | right; eauto].
  - destruct IH as [[-> ->] | (f & o & -> & ->)]; [by left | right; eauto].
Qed.

(** X3: the last sort change decides the ordering of the query: neither
    earlier events nor later searches and clicks change it. *)
Theorem last_sort_wins
    (applicationId : string) (l l' : list action)
    (f : string) (o : option Z) (st : state) :
  forallb (λ a, negb (is_sort a)) l' = true →
  orderBy (variables applicationId
             (dispatch_all (l ++ SortChange f o :: l') st))
  = orderBy (variables applicationId (handleSortChange f o initial_state)).
Proof.
  intros Hl'. rewrite dispatch_all_app; simpl.
  unfold variables; simpl. by rewrite dispatch_all_sortDir.
Qed.

Lemma last_sort_wins_witness :
  orderBy (variables "app-1"
             (dispatch_all
                ([SortChange "displayName" (Some 1); SearchChange "a"] ++
                 SortChange "description" (Some (-1)) ::
                 [NewEntityClick; SearchChange "ab"]) initial_state))
  = orderBy (variables "app-1"
               (handleSortChange "description" (Some (-1)) initial_state)).
Proof.
  exact (last_sort_wins "app-1"
           [SortChange "displayName" (Some 1); SearchChange "a"]
           [NewEntityClick; SearchChange "ab"]
           "description" (Some (-1)) initial_state eq_refl).
Defined.

(** X4: the last search decides the name filter of the query: none when
    the phrase is empty, else the case-insensitive filter on the phrase;
    sort changes and clicks in between or after do not touch it. *)
Theorem last_search_wins
    (applicationId : string) (l l' : list action) (v : string) (st : state) :
  forallb (λ a, negb (is_search a)) l' = true →
  whereName (variables applicationId
               (dispatch_all (l ++ SearchChange v :: l') st))
  = if decide (v = "") then None
    else Some {| contains := v; mode := Insensitive |}.
Proof.
  intros Hl'. rewrite dispatch_all_app; simpl.
  unfold variables; simpl. rewrite dispatch_all_searchPhrase by done; simpl.
  destruct (decide (v = "")) as [-> | Hv]; [done |].
  by destruct (decide (v ≠ "")).
Qed.

Lemma last_search_wins_witness :
  whereName (variables "app-1"
               (dispatch_all
                  ([SearchChange "us"] ++ SearchChange "" ::
                   [SortChange "description" None; NewEntityClick])
                  initial_state))
  = None.
Proof.
  exact (last_search_wins "app-1" [SearchChange "us"]
           [SortChange "description" None; NewEntityClick] ""
           initial_state eq_refl).
Defined.

(** X5: after any events the dialog is open exactly when the number of
    clicks so far is odd, starting from a closed dialog, whatever sort
    changes and searches came in between. *)
Theorem dialog_open_iff_odd_clicks (l : list action) (st : state) :
  newEntity (dispatch_all l st)
  = xorb (newEntity st) (Nat.odd (length (filter (λ a, is_click a = true) l))).
Proof.
  induction l as [| a l IH] using rev_ind; simpl.
  - by rewrite xorb_false_r.
  - rewrite dispatch_all_snoc, filter_app, length_app.
    destruct a as [f o | v |]; simpl; rewrite ?IH, ?Nat.add_0_r; try done.
    rewrite Nat.add_1_r, Nat.odd_succ, <- Nat.negb_odd.
    by destruct (newEntity st), (Nat.odd _).
Qed.

(** X6: events on the dialog do not change the query: the variables after
    any events are those after the same events without the clicks. *)
Theorem clicks_do_not_refetch
    (applicationId : string) (l : list action) (st : state) :
  variables applicationId (dispatch_all l st)
  = variables applicationId
      (dispatch_all (filter (λ a, is_click a = false) l) st).
Proof.
  assert (∀ st', sortDir (dispatch_all l st')
                 = sortDir (dispatch_all (filter (λ a, is_click a = false) l) st')
               ∧ searchPhrase (dispatch_all l st')
                 = searchPhrase
                     (dispatch_all (filter (λ a, is_click a = false) l) st'))
    as Hcells.
  { induction l as [| a l IH] using rev_ind; intros st'; [done |].
    rewrite filter_app, dispatch_all_snoc. destruct (IH st') as [Hs Hp].
    destruct a as [f o | v |]; simpl;
      rewrite ?filter_cons_True, ?filter_cons_False, ?filter_nil,
        ?app_nil_r, ?dispatch_all_snoc by done; simpl; done. }
  destruct (Hcells st) as [Hs Hp]. unfold variables. by rewrite Hs, Hp.
Qed.

(** X7: the callback of one render, run any number of times before the
    next render, leaves the state where its first run left it: the
    captured flag is negated once. *)
Theorem stale_callback_toggles_once (n : nat) (st : state) :
  Nat.iter (S n) (handleNewEntityClick (newEntity st)) st
  = click_new_entity st.
Proof.
  induction n as [| n IH]; [done |].
  rewrite Nat.iter_succ, IH. done.
Qed.

End EntityList_events.

(** ** Polling over every lifecycle *)

Section EntityList_lifecycles.
Import EntityList.

Lemma polling_pairs_S (n : nat) :
  polling_pairs (S n)
  = polling_pairs n ++ [StartPolling POLL_INTERVAL; StopPolling].
Proof.
  unfold polling_pairs. induction n as [| n IH]; [done |].
  change (mjoin (replicate (S (S n)) ?p)) with (p ++ mjoin (replicate (S n) p)).
  rewrite IH at 1. done.
Qed.

Lemma step_alternating (ev : lifecycle) (v v' : view) :
  alternating v → step ev v = Some v' → alternating v'.
Proof.
  unfold alternating, step. destruct v as [c [f |]]; simpl.
  - intros (n & Hf & Hp & Hc). destruct ev as [| [|] |]; intros [= <-].
    + exists (S n). rewrite polling_pairs_S.
      cbn [cleanup client polling_effect fst snd]. rewrite Hf.
      unfold startPolling, stopPolling; cbn [calls pollInterval]. rewrite Hc.
      split; [done | split; [done |]]. by rewrite <- !app_assoc.
    + by exists n.
    + exists (S n). rewrite polling_pairs_S.
      cbn [cleanup client]. rewrite Hf.
      unfold stopPolling; cbn [calls pollInterval]. rewrite Hc.
      split; [done |]. by rewrite <- !app_assoc.
  - intros (n & Hp & Hc). destruct ev as [| [|] |]; intros [= <-].
    exists n. cbn [cleanup client polling_effect].
    unfold startPolling; cbn [calls pollInterval]. rewrite Hc. done.
Qed.

(** X8: over every lifecycle React can run from a fresh client, renders
    that change the dependencies of the effect included, the client sees
    starts at the interval 2000 and stops strictly in turn; the timer is
    set, to 2000, exactly while the view is mounted. *)
Theorem polling_alternates (evs : list lifecycle) (v : view) :
  run evs (unmounted fresh_client) = Some v →
  ∃ n,
    calls (client v)
    = polling_pairs n ++
      match cleanup v with Some _ => [StartPolling 2000] | None => [] end
    ∧ pollInterval (client v)
      = match cleanup v with Some _ => Some 2000 | None => None end.
Proof.
  assert (∀ v0, alternating v0 → run evs v0 = Some v → alternating v) as Hrun.
  { induction evs as [| ev evs IH]; intros v0 Hv0; simpl.
    - by intros [= <-].
    - destruct (step ev v0) as [v1 |] eqn:Hstep; simpl; [| done].
      apply IH. by eapply step_alternating. }
  intros Hv. apply Hrun in Hv; [| by exists 0%nat].
  destruct Hv as [n Hn]. exists n. destruct (cleanup v) as [f |].
  - by destruct Hn as (_ & -> & ->).
  - destruct Hn as (-> & ->). by rewrite app_nil_r.
Qed.

Lemma polling_alternates_witness :
  ∃ v n,
    run [Mount; Render true; Render false; Unmount; Mount]
      (unmounted fresh_client) = Some v
    ∧ calls (client v)
      = polling_pairs n ++
        match cleanup v with Some _ => [StartPolling 2000] | None => [] end
    ∧ pollInterval (client v)
      = match cleanup v with Some _ => Some 2000 | None => None end.
Proof.
  eexists.
  destruct (polling_alternates
              [Mount; Render true; Render false; Unmount; Mount] _ eq_refl)
    as (n & Hcalls & Htimer).
  exists n. split; [reflexivity | split; assumption].
Defined.

End EntityList_lifecycles.

(** ** Rows *)

Section EntityList_rows.
Import EntityList samples.

Lemma append_empty_l (s : string) : "" +:+ s = s.
Proof. done. Qed.

Lemma append_assoc (s1 s2 s3 : string) :
  (s1 +:+ s2) +:+ s3 = s1 +:+ (s2 +:+ s3).
Proof.
  induction s1 as [| a s1 IH]; [done |].
  change (String a ((s1 +:+ s2) +:+ s3) = String a (s1 +:+ (s2 +:+ s3))).
  by rewrite IH.
Qed.

Lemma append_String (a : Ascii.ascii) (s1 s2 : string) :
  String a s1 +:+ s2 = String a (s1 +:+ s2).
Proof. done. Qed.

Lemma count_Fragment (ty : string) (l : list node) :
  count ty (Fragment l) = sum_list (count ty <$> l).
Proof. induction l as [| c l IH]; simpl in *; [done | by rewrite IH]. Qed.

Lemma count_Element (ty ty' : string) (ps : list (string * prop)) (l : list node) :
  count ty (Element ty' ps l)
  = ((if decide (ty = ty') then 1 else 0) + sum_list (count ty <$> l))%nat.
Proof.
  simpl. f_equal. induction l as [| c l IH]; simpl in *; [done | by rewrite IH].
Qed.

Lemma renderRow_inv (applicationId : string) (entity : Entity) (row : node) :
  renderRow applicationId entity = Normal row →
  ∃ v vs, entityVersions entity = v :: vs.
Proof.
  unfold renderRow. destruct (entityVersions entity) as [| v vs]; [done |].
  by exists v, vs.
Qed.

Lemma renderRow_is_one_row (applicationId : string) (entity : Entity) (row : node) :
  renderRow applicationId entity = Normal row → count "DataGridRow" row = 1%nat.
Proof.
  unfold renderRow. destruct (entityVersions entity) as [| v vs]; [done |].
  simpl. intros [= <-].
  by destruct (lockedByUser entity), (description entity), (commit v).
Qed.

(** X9: a render that succeeds shows one grid row per returned entity, and
    none without data. *)
Theorem one_row_per_entity
    (formatError : option Error → option string)
    (applicationId : string) (st : state) (q : QueryResult) (t : node) :
  render formatError applicationId st q = Normal t →
  count "DataGridRow" t = length (from_option entities [] (data q)).
Proof.
  unfold render, renderRows. destruct (data q) as [d |]; simpl.
  - destruct (mapM _ _) as [rows |] eqn:Hrows; simpl; [| done].
    intros [= <-]. apply mapM_Normal_Forall2 in Hrows.
    assert (sum_list (count "DataGridRow" <$> rows) = length (entities d))
      as Hsum.
    { induction Hrows as [| entity row es rows Hrow _ IH]; [done |].
      rewrite fmap_cons.
      change (sum_list (?x :: ?l)) with (x + sum_list l)%nat.
      by rewrite (renderRow_is_one_row _ _ _ Hrow), IH. }
    rewrite count_Fragment. cbn [fmap list_fmap sum_list sum_list_with].
    rewrite !count_Element. cbn [fmap list_fmap sum_list sum_list_with].
    rewrite count_Fragment, Hsum. unfold Datatypes.id. simpl. lia.
  - by intros [= <-].
Qed.

Lemma one_row_per_entity_witness :
  ∃ t,
    render message_of "app-1" initial_state
      {| data := Some {| entities := [customer; customer] |};
         loading := true; error := None |} = Normal t
    ∧ count "DataGridRow" t = 2%nat.
Proof.
  eexists. split; [reflexivity |].
  exact (one_row_per_entity message_of "app-1" initial_state
           {| data := Some {| entities := [customer; customer] |};
              loading := true; error := None |} _ eq_refl).
Defined.

(** X10: the rows come in the order of the entities, each rendered from
    its entity, and a row and the link in its name cell navigate to the
    same place, the page of the entity under the application. *)
Theorem rows_follow_entities
    (applicationId : string) (d : TData) (rows : node) :
  renderRows applicationId (Some d) = Normal rows →
  Forall2
    (λ entity row,
       renderRow applicationId entity = Normal row
       ∧ prop_of "navigateUrl" row
         = Some (PString ("/" +:+ applicationId +:+ "/entities/" +:+ id entity))
       ∧ (children_of row !! 1%nat ≫= λ cell,
          children_of cell !! 0%nat ≫= prop_of "to")
         = prop_of "navigateUrl" row)
    (entities d) (children_of rows).
Proof.
  unfold renderRows.
  destruct (mapM _ _) as [rs |] eqn:Hrows; simpl; [| done].
  intros [= <-]. apply mapM_Normal_Forall2 in Hrows. simpl.
  eapply Forall2_impl; [exact Hrows |].
  intros entity row Hrow. split; [done |].
  unfold renderRow in Hrow.
  destruct (entityVersions entity) as [| v vs]; [done |].
  simpl in Hrow. injection Hrow as <-. by split.
Qed.

Lemma rows_follow_entities_witness :
  ∃ rows,
    renderRows "app-1" (Some {| entities := [invoice; customer] |})
    = Normal rows
    ∧ Forall2
        (λ entity row,
           renderRow "app-1" entity = Normal row
           ∧ prop_of "navigateUrl" row
             = Some (PString ("/" +:+ "app-1" +:+ "/entities/" +:+ id entity))
           ∧ (children_of row !! 1%nat ≫= λ cell,
              children_of cell !! 0%nat ≫= prop_of "to")
             = prop_of "navigateUrl" row)
        [invoice; customer] (children_of rows).
Proof.
  eexists. split; [reflexivity |].
  exact (rows_follow_entities "app-1"
           {| entities := [invoice; customer] |} _ eq_refl).
Defined.



(** X12: the text of a row is the display name, the description, ["V"]
    with the number of the latest version, the message of its commit, a
    blank and the time of the commit, each absent part left out. *)
Theorem text_of_row
    (applicationId : string) (entity : Entity)
    (v : EntityVersion) (vs : list EntityVersion) :
  entityVersions entity = v :: vs →
  ∃ row,
    renderRow applicationId entity = Normal row
    ∧ textContent row
      = displayName entity +:+ default "" (description entity) +:+
        "V" +:+ String_of_number (versionNumber v) +:+
        default "" (models.message <$> commit v) +:+ " " +:+
        default "" (createdAt <$> commit v).
Proof.
  intros Hvs. unfold renderRow. rewrite Hvs; simpl. eexists.
  split; [reflexivity |].
  destruct (lockedByUser entity), (description entity), (commit v); simpl;
    rewrite ?append_empty_r, ?append_assoc, ?append_empty_l,
      ?append_String, ?append_empty_l; reflexivity.
Qed.

Lemma text_of_row_witness :
  ∃ row,
    renderRow "app-1" invoice = Normal row
    ∧ textContent row = "InvoiceV3add total 2020-08-30".
Proof.
  exact (text_of_row "app-1" invoice _ _ eq_refl).
Defined.

(** X13: the row shows the first of the entity's versions and no other:
    the versions after the first do not change the row. *)
Theorem row_ignores_older_versions
    (applicationId : string) (entity : Entity) :
  renderRow applicationId entity
  = renderRow applicationId
      {| id := id entity; displayName := displayName entity;
         description := description entity;
         lockedByUserId := lockedByUserId entity;
         lockedAt := lockedAt entity; lockedByUser := lockedByUser entity;
         entityVersions := take 1 (entityVersions entity) |}.
Proof.
  destruct entity as [i dn de lbi la lbu vs]. by destruct vs.
Qed.

Lemma String_of_number_inj (n m : Z) :
  String_of_number n = String_of_number m → n = m.
Proof.
  unfold String_of_number. intros Heq.
  assert (∀ z, NilZero.int_of_string (NilZero.string_of_int (Z.to_int z))
               = Some (Z.to_int z)) as Hparse.
  { intros z. apply NilZero.isi.
    - destruct z as [| p | p]; simpl; [done | | done].
      intros [= Hp]. by apply DecimalPos.Unsigned.to_uint_nonnil in Hp.
    - destruct z as [| p | p]; simpl; [done | done |].
      intros [= Hp]. by apply DecimalPos.Unsigned.to_uint_nonnil in Hp. }
  apply DecimalZ.to_int_inj.
  apply (inj Some). by rewrite <- !Hparse, Heq.
Qed.

(** X14: the version cell tells the versions apart: two rows whose
    version cells read the same are of entities whose latest versions
    have the same number. *)
Theorem version_label_determines_number
    (applicationId : string) (e1 e2 : Entity) (r1 r2 : node) :
  renderRow applicationId e1 = Normal r1 →
  renderRow applicationId e2 = Normal r2 →
  textContent <$> children_of r1 !! 3%nat
  = textContent <$> children_of r2 !! 3%nat →
  versionNumber <$> head (entityVersions e1)
  = versionNumber <$> head (entityVersions e2).
Proof.
  unfold renderRow.
  destruct (entityVersions e1) as [| v1 vs1]; [done |].
  destruct (entityVersions e2) as [| v2 vs2]; [done |].
  simpl. intros [= <-] [= <-]; simpl. intros [= Htext].
  f_equal. apply String_of_number_inj.
  rewrite !append_empty_r in Htext. by simplify_eq.
Qed.

Lemma version_label_determines_number_witness :
  versionNumber <$> head (entityVersions customer)
  = versionNumber <$> head (entityVersions invoice).
Proof.
  exact (version_label_determines_number "app-1" customer invoice _ _
           eq_refl eq_refl eq_refl).
Defined.

End EntityList_rows.

(** ** Selections in a row *)

Section useGitSelected_selections.
Import useGitSelected samples.

Lemma completed_runs_app (w1 w2 : world) :
  completed_runs (w1 ++ w2) = (completed_runs w1 + completed_runs w2)%nat.
Proof. unfold completed_runs, world in *. by rewrite filter_app, length_app. Qed.

Lemma select_all_snoc (backend : MutationVariables → App + Error)
    (props : Props) (repos : list GitRepo) (data : GitRepo) (w : world) :
  select_all backend props (repos ++ [data]) w
  = snd (handleRepoSelected backend props data
           (select_all backend props repos w)).
Proof. unfold select_all. by rewrite foldl_app. Qed.

(** X15: for one selection followed to its settlement. When the mutation
    fails, the callback does not run and the error of the mutation is the
    one thing written to the console. When it succeeds, a callback that is
    given runs once; if it returns nothing is written, and if it throws,
    the error it throws is written, as the promise is then rejected. With
    no callback nothing runs and nothing is written. *)
Theorem callback_runs_once_and_its_error_is_logged
    (backend : MutationVariables → App + Error) (props : Props)
    (data : GitRepo) (w : world) :
  let options := {| variables := {| var_githubRepo := fullName data;
                                    var_githubBranch := None;
                                    var_appId := appId props |} |} in
  let w' := snd (handleRepoSelected backend props data w) in
  match backend (variables options) with
  | inl _ =>
      match onCompleted props with
      | Some callback =>
          completed_runs w' = S (completed_runs w)
          ∧ console w'
            = console w ++
              match callback (w ++ [MutationSent options]) with
              | Normal _ => []
              | Throw e => [e]
              end
      | None =>
          completed_runs w' = completed_runs w ∧ console w' = console w
      end
  | inr e =>
      completed_runs w' = completed_runs w ∧ console w' = console w ++ [e]
  end.
Proof.
  cbv zeta. rewrite handleRepoSelected_run, settle_run. cbn [snd].
  rewrite !completed_runs_app, !console_app.
  change (variables (options_of props data))
    with {| var_githubRepo := fullName data; var_githubBranch := None;
            var_appId := appId props |}.
  change (console [MutationSent (options_of props data)]) with (@nil Error).
  change (completed_runs [MutationSent (options_of props data)]) with 0%nat.
  rewrite app_nil_r, Nat.add_0_r.
  destruct (backend _) as [app | e].
  - destruct (onCompleted props) as [callback |].
    + change (w ++ [MutationSent (options_of props data)])
        with (w ++ [MutationSent
                      {| variables := {| var_githubRepo := fullName data;
                                         var_githubBranch := None;
                                         var_appId := appId props |} |}]).
      destruct (callback _); split;
        first [ apply Nat.add_1_r | done | by rewrite app_nil_r ].
    + split; [apply Nat.add_0_r | apply app_nil_r].
  - split; [apply Nat.add_0_r | done].
Qed.

(** X16: every selection sends its own mutation: after the repositories
    of a list were selected one after the other, the mutations sent are
    one per selection, in that order, each with the full name of its
    repository, a null branch and the identifier of the application. *)
Theorem one_mutation_per_selection
    (backend : MutationVariables → App + Error) (props : Props)
    (repos : list GitRepo) (w : world) :
  mutations_sent (select_all backend props repos w)
  = mutations_sent w ++
    ((λ data, {| variables := {| var_githubRepo := fullName data;
                                 var_githubBranch := None;
                                 var_appId := appId props |} |}) <$> repos).
Proof.
  induction repos as [| data repos IH] using rev_ind.
  - simpl. by rewrite app_nil_r.
  - rewrite select_all_snoc, fmap_app, handleRepoSelected_run; simpl.
    by rewrite settle_mutations_sent, mutations_sent_app, IH, <- app_assoc.
Qed.

Lemma hook_run_app
    (backend : MutationVariables → App + Error) (props : Props)
    (evs1 evs2 : list hook_event) (s : hook_state) :
  hook_run backend props (evs1 ++ evs2) s
  = hook_run backend props evs1 s ≫= hook_run backend props evs2.
Proof.
  revert s. induction evs1 as [| ev evs1 IH]; intros s; simpl; [done |].
  destruct (hook_step backend props ev s) as [s' |]; simpl; [apply IH | done].
Qed.

Lemma settle_console_length
    (backend : MutationVariables → App + Error) (props : Props)
    (options : MutationOptions) (w : world) :
  (length (console (settle backend props options w))
   ≤ S (length (console w)))%nat.
Proof.
  rewrite settle_run, console_app, length_app.
  destruct (backend _) as [app | e]; simpl; [| lia].
  destruct (onCompleted props) as [callback |]; simpl; [| lia].
  destruct (callback w); simpl; lia.
Qed.

(** What a run keeps, from any state. *)
Lemma hook_run_invariant
    (backend : MutationVariables → App + Error) (props : Props)
    (evs : list hook_event) (s0 s : hook_state) :
  hook_run backend props evs s0 = Some s →
  unhandled (log s) = unhandled (log s0)
  ∧ mutations_sent (log s)
    = mutations_sent (log s0) ++ (options_of props <$> selections evs)
  ∧ (length (pending s) + settlements evs
     = length (pending s0) + length (selections evs))%nat
  ∧ (length (console (log s))
     ≤ length (console (log s0)) + settlements evs)%nat.
Proof.
  revert s0. induction evs as [| ev evs IH]; intros s0.
  - intros [= <-]. cbn. rewrite app_nil_r. repeat split; lia.
  - destruct ev as [data | i].
    + change (selections (Select data :: evs)) with (data :: selections evs).
      change (settlements (Select data :: evs)) with (settlements evs).
      intros Hrun. apply IH in Hrun as (Hu & Hm & Hp & Hc). clear IH.
      cbn [select log pending] in Hu, Hm, Hp, Hc. unfold send_mutation in *.
      rewrite unhandled_app in Hu. rewrite mutations_sent_app in Hm.
      rewrite console_app in Hc. rewrite length_app in Hp.
      change (unhandled [MutationSent _]) with (@nil Error) in Hu.
      change (console [MutationSent _]) with (@nil Error) in Hc.
      change (mutations_sent [MutationSent ?o]) with [o] in Hm.
      rewrite app_nil_r in Hu, Hc. rewrite <- app_assoc in Hm.
      cbn [length] in *. rewrite fmap_cons.
      split; [done |]. split; [done |]. split; lia.
    + change (selections (Settle i :: evs)) with (selections evs).
      change (settlements (Settle i :: evs)) with (S (settlements evs)).
      cbn [hook_run hook_step].
      destruct (pending s0 !! i) as [options |] eqn:Hi; [| done].
      intros Hrun. apply IH in Hrun as (Hu & Hm & Hp & Hc). clear IH.
      cbn [log pending] in Hu, Hm, Hp, Hc.
      rewrite settle_unhandled in Hu. rewrite settle_mutations_sent in Hm.
      pose proof (settle_console_length backend props options (log s0)).
      rewrite length_delete in Hp by eauto.
      apply lookup_lt_Some in Hi.
      split; [done |]. split; [done |]. split; lia.
Qed.

(** The handler followed to its settlement is the call and then the
    settlement of its promise, with no other event in between. *)
Lemma handleRepoSelected_is_select_then_settle
    (backend : MutationVariables → App + Error) (props : Props)
    (data : GitRepo) (w : world) :
  hook_run backend props [Select data; Settle 0] {| log := w; pending := [] |}
  = Some {| log := snd (handleRepoSelected backend props data w);
            pending := [] |}.
Proof. by rewrite handleRepoSelected_run. Qed.

(** X17: selections may overlap, since the handler does not wait for its
    mutation, and the pending promises may settle in any order. Over every
    such run from an idle hook no rejection is left unhandled, the
    mutations were sent in the order of the selections, the promises still
    pending are the selections less the settlements, and each settlement
    wrote at most one error to the console. *)
Theorem overlapping_selections_are_handled
    (backend : MutationVariables → App + Error) (props : Props)
    (evs : list hook_event) (s : hook_state) :
  hook_run backend props evs idle = Some s →
  unhandled (log s) = []
  ∧ mutations_sent (log s) = options_of props <$> selections evs
  ∧ (length (pending s) + settlements evs = length (selections evs))%nat
  ∧ (length (console (log s)) ≤ settlements evs)%nat.
Proof.
  intros Hrun. by apply hook_run_invariant in Hrun.
Qed.

Lemma overlapping_selections_are_handled_witness :
  ∃ s,
    hook_run failing_backend {| appId := "app-1"; onCompleted := None |}
      [Select org_repo; Select {| fullName := "org/other" |};
       Settle 1; Select org_repo; Settle 0] idle = Some s
    ∧ unhandled (log s) = []
    ∧ mutations_sent (log s)
      = options_of {| appId := "app-1"; onCompleted := None |}
          <$> [org_repo; {| fullName := "org/other" |}; org_repo]
    ∧ (length (pending s) + 2 = 3)%nat
    ∧ (length (console (log s)) ≤ 2)%nat.
Proof.
  eexists. split; [reflexivity |].
  exact (overlapping_selections_are_handled failing_backend
           {| appId := "app-1"; onCompleted := None |}
           [Select org_repo; Select {| fullName := "org/other" |};
            Settle 1; Select org_repo; Settle 0] _ eq_refl).
Defined.

Lemma hook_run_selects
    (backend : MutationVariables → App + Error) (props : Props)
    (repos : list GitRepo) (s : hook_state) :
  hook_run backend props (Select <$> repos) s
  = Some {| log := log s ++ (MutationSent <$> (options_of props <$> repos));
            pending := pending s ++ (options_of props <$> repos) |}.
Proof.
  revert s. induction repos as [| data repos IH]; intros [w p].
  - cbn. by rewrite !app_nil_r.
  - rewrite !fmap_cons. cbn [hook_run hook_step mbind option_bind].
    rewrite IH. unfold select, send_mutation; cbn [log pending].
    by rewrite <- !app_assoc.
Qed.

Lemma omap_reverse {A B} (f : A → option B) (l : list A) :
  omap f (reverse l) = reverse (omap f l).
Proof.
  induction l as [| x l IH]; [done |].
  rewrite reverse_cons, omap_app, IH. cbn [omap list_omap].
  destruct (f x) as [y |]; [by rewrite reverse_cons | apply app_nil_r].
Qed.

Lemma console_sent (l : list MutationOptions) :
  console (MutationSent <$> l) = [].
Proof. induction l as [| o l IH]; [done | exact IH]. Qed.

(** The settlement of a mutation whose callback, if any, returns. *)
Lemma settle_console_quiet_callback
    (backend : MutationVariables → App + Error) (props : Props)
    (options : MutationOptions) (w : world) :
  (∀ callback w', onCompleted props = Some callback → callback w' = Normal ()) →
  console (settle backend props options w)
  = console w ++ option_list (failure_of backend options).
Proof.
  intros Hquiet. rewrite settle_run, console_app. f_equal. unfold failure_of.
  destruct (backend _) as [app | e]; [| done].
  destruct (onCompleted props) as [callback |]; [| done].
  by rewrite (Hquiet callback w eq_refl).
Qed.

Lemma settle_oldest_first
    (backend : MutationVariables → App + Error) (props : Props)
    (p : list MutationOptions) (w : world) :
  (∀ callback w', onCompleted props = Some callback → callback w' = Normal ()) →
  ∃ w',
    hook_run backend props (replicate (length p) (Settle 0))
      {| log := w; pending := p |} = Some {| log := w'; pending := [] |}
    ∧ console w' = console w ++ omap (failure_of backend) p.
Proof.
  intros Hquiet. revert w. induction p as [| o p IH]; intros w.
  - exists w. split; [done | by rewrite app_nil_r].
  - destruct (IH (settle backend props o w)) as (w' & Hrun & Hc).
    exists w'. split; [exact Hrun |].
    rewrite Hc, settle_console_quiet_callback, <- app_assoc by done.
    f_equal. cbn. by destruct (failure_of backend o).
Qed.

Lemma settle_newest_first
    (backend : MutationVariables → App + Error) (props : Props)
    (p : list MutationOptions) (w : world) :
  (∀ callback w', onCompleted props = Some callback → callback w' = Normal ()) →
  ∃ w',
    hook_run backend props (Settle <$> reverse (seq 0 (length p)))
      {| log := w; pending := p |} = Some {| log := w'; pending := [] |}
    ∧ console w' = console w ++ omap (failure_of backend) (reverse p).
Proof.
  intros Hquiet. revert w. induction p as [| o p IH] using rev_ind; intros w.
  - exists w. split; [done | by rewrite app_nil_r].
  - rewrite length_app, Nat.add_1_r, seq_S, !reverse_snoc, fmap_cons.
    cbn [hook_run hook_step log pending plus].
    rewrite list_lookup_middle by done. cbn [mbind option_bind].
    replace (delete (length p) (p ++ [o])) with p
      by (symmetry; rewrite <- (app_nil_r p) at 3; apply delete_middle).
    destruct (IH (settle backend props o w)) as (w' & Hrun & Hc).
    exists w'. split; [exact Hrun |].
    rewrite Hc, settle_console_quiet_callback, <- app_assoc by done.
    f_equal. cbn. by destruct (failure_of backend o).
Qed.

(** X18: the errors are written in the order in which the promises
    settle, not in the order of the selections. After some selections in a
    row, with a callback that does not throw, if any: when the promises
    settle oldest first the console holds the errors of the failed
    mutations in the order of the selections, and when they settle newest
    first it holds them in the opposite order. *)
Theorem errors_logged_in_settlement_order
    (backend : MutationVariables → App + Error) (props : Props)
    (repos : list GitRepo) :
  (∀ callback w, onCompleted props = Some callback → callback w = Normal ()) →
  let errors := omap (failure_of backend) (options_of props <$> repos) in
  (∃ s,
     hook_run backend props
       ((Select <$> repos) ++ replicate (length repos) (Settle 0)) idle
     = Some s
     ∧ pending s = [] ∧ console (log s) = errors)
  ∧ (∃ s,
       hook_run backend props
         ((Select <$> repos) ++ (Settle <$> reverse (seq 0 (length repos))))
         idle
       = Some s
       ∧ pending s = [] ∧ console (log s) = reverse errors).
Proof.
  intros Hquiet errors. split.
  - rewrite hook_run_app, hook_run_selects. cbn [mbind option_bind idle log pending].
    rewrite !app_nil_l.
    destruct (settle_oldest_first backend props (options_of props <$> repos)
                (MutationSent <$> (options_of props <$> repos)) Hquiet)
      as (w' & Hrun & Hc).
    rewrite length_fmap in Hrun. eexists. split; [exact Hrun |].
    split; [done |]. cbn [log]. by rewrite Hc, console_sent.
  - rewrite hook_run_app, hook_run_selects. cbn [mbind option_bind idle log pending].
    rewrite !app_nil_l.
    destruct (settle_newest_first backend props (options_of props <$> repos)
                (MutationSent <$> (options_of props <$> repos)) Hquiet)
      as (w' & Hrun & Hc).
    rewrite length_fmap in Hrun. eexists. split; [exact Hrun |].
    split; [done |]. cbn [log]. rewrite Hc, console_sent. unfold errors.
    cbn. apply omap_reverse.
Qed.

Lemma errors_logged_in_settlement_order_witness :
  (∃ s,
     hook_run (λ v, if decide (var_githubRepo v = "org/repo")
                    then inr network_error
                    else inr {| JS.name := "Error"; JS.message := "denied" |})
       {| appId := "app-1"; onCompleted := Some (λ _, Normal ()) |}
       [Select org_repo; Select {| fullName := "org/other" |};
        Settle 0; Settle 0] idle
     = Some s
     ∧ pending s = []
     ∧ console (log s)
       = [network_error; {| JS.name := "Error"; JS.message := "denied" |}])
  ∧ (∃ s,
       hook_run (λ v, if decide (var_githubRepo v = "org/repo")
                      then inr network_error
                      else inr {| JS.name := "Error"; JS.message := "denied" |})
         {| appId := "app-1"; onCompleted := Some (λ _, Normal ()) |}
         [Select org_repo; Select {| fullName := "org/other" |};
          Settle 1; Settle 0] idle
       = Some s
       ∧ pending s = []
       ∧ console (log s)
         = [{| JS.name := "Error"; JS.message := "denied" |}; network_error]).
Proof.
  exact (errors_logged_in_settlement_order
           (λ v, if decide (var_githubRepo v = "org/repo")
                 then inr network_error
                 else inr {| JS.name := "Error"; JS.message := "denied" |})
           {| appId := "app-1"; onCompleted := Some (λ _, Normal ()) |}
           [org_repo; {| fullName := "org/other" |}]
           (λ callback w H,
              match H in _ = c return
                match c with Some f => f w = Normal () | None => True end
              with eq_refl => eq_refl end)).
Defined.

End useGitSelected_selections.
